(** * Switch symbols of schemdraw: geometry of [schemdraw/elements/switches.py]

    Every class of the module is a constructor that appends drawing
    primitives to [self.segments], names points in [self.anchors] and sets
    rendering hints in [self.params].  The constructors are embedded as
    functions that thread the element under construction, in the order of
    the statements of each [__init__].

    Python floats are idealised as real numbers: [math.cos], [math.sin] and
    [math.pi] are the functions and the constant of the Standard Library's
    reals, and [math.radians] is multiplication by [PI / 180]. *)

From Stdlib Require Import Reals Lra Lia ZArith List.
From stdpp Require Import gmap strings pretty.

Open Scope R_scope.

(** ** Data model *)

Definition Point : Type := R * R.

(** An item of a polyline: a point, or the pen-up marker [gap]. *)
Inductive PathItem : Type :=
| Pt (p : Point)
| gap.

(** The primitives of [schemdraw.segments] that the module builds, with
    the keyword arguments the module passes. *)
Inductive segment : Type :=
| Segment (path : list PathItem) (ls : option string)
| SegmentCircle (center : Point) (radius : R)
| SegmentArc (center : Point) (width height theta1 theta2 : R) (arrow : string)
| SegmentArrow (tail head : Point) (zorder : Z).

(** Values stored in [self.params]. *)
Inductive param : Type :=
| PStr (s : string)
| PInt (z : Z)
| PPoint (p : Point).

Record Element : Type := mkElement {
  segments : list segment;
  anchors : gmap string Point;
  params : gmap string param
}.

(** Exceptions the constructors can raise. *)
Inductive exn : Type :=
| ZeroDivisionError
| IndexError.

Inductive result (A : Type) : Type :=
| Ok (a : A)
| Raise (e : exn).
Arguments Ok {A} a.
Arguments Raise {A} e.

(** [self.segments.append(s)], [self.anchors[k] = p], [self.params[k] = v] *)
Definition append (s : segment) (self : Element) : Element :=
  mkElement (segments self ++ [s]) (anchors self) (params self).

Definition set_anchor (k : string) (p : Point) (self : Element) : Element :=
  mkElement (segments self) (<[k := p]> (anchors self)) (params self).

Definition set_param (k : string) (v : param) (self : Element) : Element :=
  mkElement (segments self) (anchors self) (<[k := v]> (params self)).

(** Modelled from the spec: the constructor of the base classes [Element]
    and [Element2Term] of [schemdraw/elements/elements.py], which is not
    part of this module.  It yields a container with an empty ordered list
    of segments, no anchors and no parameters. *)
Definition Element__init__ : Element := mkElement [] ∅ ∅.

Definition sw_dot_r : R := 12 / 100.

(** ** Classifying segments *)

Definition is_arc (s : segment) : bool :=
  match s with SegmentArc _ _ _ _ _ _ => true | _ => false end.

Definition is_circle (s : segment) : bool :=
  match s with SegmentCircle _ _ => true | _ => false end.

Definition is_arrow (s : segment) : bool :=
  match s with SegmentArrow _ _ _ => true | _ => false end.

Definition is_dotted (s : segment) : bool :=
  match s with Segment _ (Some ls) => String.eqb ls ":" | _ => false end.

Definition arcs (e : Element) : list segment := filter is_arc (segments e).
Definition circles (e : Element) : list segment := filter is_circle (segments e).
Definition arrows (e : Element) : list segment := filter is_arrow (segments e).

(** ** Switch *)

(** [action == 'open'] on an optional string. *)
Definition action_is (action : option string) (s : string) : bool :=
  match action with
  | Some a => String.eqb a s
  | None => false
  end.

Definition Switch (action : option string) : Element :=
  let self := Element__init__ in
  let self := append (Segment [Pt (0, 0); gap; Pt (sw_dot_r * 2, 1/10);
                               Pt (8/10, 45/100); gap; Pt (1, 0)] None) self in
  let self := append (SegmentCircle (sw_dot_r, 0) sw_dot_r) self in
  let self := append (SegmentCircle (1 - sw_dot_r, 0) sw_dot_r) self in
  let self := if action_is action "open"
              then append (SegmentArc (4/10, 1/10) (5/10) (75/100) (-10) 70 "ccw") self
              else self in
  let self := if action_is action "close"
              then append (SegmentArc (4/10, 25/100) (5/10) (75/100) (-10) 70 "cw") self
              else self in
  self.

(** ** SwitchSpdt: a [Switch] with a third contact *)

Definition SwitchSpdt (action : option string) : Element :=
  let self := Switch action in
  let self := append (SegmentCircle (1 - sw_dot_r, 7/10) sw_dot_r) self in
  let self := set_anchor "a" (0, 0) self in
  let self := set_anchor "b" (1, 0) self in
  let self := set_anchor "c" (1, 7/10) self in
  self.

(** ** SwitchSpdt2: throws above and below *)

Definition SwitchSpdt2 (action : option string) : Element :=
  let self := Element__init__ in
  let self := append (Segment [Pt (0, 0); gap; Pt (sw_dot_r * 2, 1/10);
                               Pt (7/10, 25/100); gap; Pt (1, 4/10)] None) self in
  let self := append (SegmentCircle (sw_dot_r, 0) sw_dot_r) self in
  let self := append (SegmentCircle (1 - sw_dot_r, - (4/10)) sw_dot_r) self in
  let self := append (SegmentCircle (1 - sw_dot_r, 4/10) sw_dot_r) self in
  let self := set_anchor "a" (0, 0) self in
  let self := set_anchor "b" (1, 4/10) self in
  let self := set_anchor "c" (1, - (4/10)) self in
  let self := if action_is action "open"
              then append (SegmentArc (35/100, 0) (5/10) (75/100) (-10) 70 "ccw") self
              else if action_is action "close"
              then append (SegmentArc (3/10, 0) (5/10) (75/100) (-10) 70 "cw") self
              else self in
  let self := set_param "drop" (PPoint (1, 4/10)) self in
  self.

(** ** Button *)

Definition Button (nc : bool) : Element :=
  let self := Element__init__ in
  let self :=
    if nc
    then append (Segment [Pt (0, 0); gap; Pt (sw_dot_r, - sw_dot_r - 5/100);
                          Pt (1 - sw_dot_r, - sw_dot_r - 5/100); gap;
                          Pt (5/10, - sw_dot_r - 5/100);
                          Pt (5/10, sw_dot_r + 15/100); gap; Pt (1, 0)] None) self
    else append (Segment [Pt (0, 0); gap; Pt (sw_dot_r, 3/10);
                          Pt (1 - sw_dot_r, 3/10); gap; Pt (5/10, 3/10);
                          Pt (5/10, 5/10); gap; Pt (1, 0)] None) self in
  let self := append (SegmentCircle (sw_dot_r, 0) sw_dot_r) self in
  let self := append (SegmentCircle (1 - sw_dot_r, 0) sw_dot_r) self in
  self.

(** ** SwitchDpst and SwitchDpdt: two poles and the dotted link *)

(** [Segment([[0.5, yofst+.25], [0.5, 0.2]], ls=':')] *)
Definition link_segment (yofst : R) : segment :=
  Segment [Pt (5/10, yofst + 25/100); Pt (5/10, 2/10)] (Some ":").

Definition SwitchDpst (link : bool) : Element :=
  let self := Element__init__ in
  let yofst := -1 in
  let self := append (Segment [Pt (0, 0); gap; Pt (sw_dot_r * 2, 1/10);
                               Pt (8/10, 45/100); gap; Pt (1, 0)] None) self in
  let self := append (SegmentCircle (sw_dot_r, 0) sw_dot_r) self in
  let self := append (SegmentCircle (1 - sw_dot_r, 0) sw_dot_r) self in
  let self := append (Segment [Pt (0, yofst); gap; Pt (sw_dot_r * 2, yofst + 1/10);
                               Pt (8/10, yofst + 45/100); gap; Pt (1, yofst)] None) self in
  let self := append (SegmentCircle (sw_dot_r, yofst) sw_dot_r) self in
  let self := append (SegmentCircle (1 - sw_dot_r, yofst) sw_dot_r) self in
  let self := if link then append (link_segment yofst) self else self in
  let self := set_anchor "p1" (0, 0) self in
  let self := set_anchor "t1" (1, 0) self in
  let self := set_anchor "p2" (0, yofst) self in
  let self := set_anchor "t2" (1, yofst) self in
  self.

Definition SwitchDpdt (link : bool) : Element :=
  let self := Element__init__ in
  let yofst := - (14/10) in
  let self := append (Segment [Pt (0, 0); gap; Pt (sw_dot_r * 2, 1/10);
                               Pt (7/10, 25/100); gap; Pt (1, 4/10)] None) self in
  let self := append (SegmentCircle (sw_dot_r, 0) sw_dot_r) self in
  let self := append (SegmentCircle (1 - sw_dot_r, - (4/10)) sw_dot_r) self in
  let self := append (SegmentCircle (1 - sw_dot_r, 4/10) sw_dot_r) self in
  let self := append (Segment [Pt (0, yofst); gap; Pt (sw_dot_r * 2, yofst + 1/10);
                               Pt (7/10, yofst + 25/100); gap;
                               Pt (1, yofst + 4/10)] None) self in
  let self := append (SegmentCircle (sw_dot_r, yofst) sw_dot_r) self in
  let self := append (SegmentCircle (1 - sw_dot_r, yofst - 4/10) sw_dot_r) self in
  let self := append (SegmentCircle (1 - sw_dot_r, yofst + 4/10) sw_dot_r) self in
  let self := if link then append (link_segment yofst) self else self in
  let self := set_anchor "p1" (0, 0) self in
  let self := set_anchor "t1" (1, 4/10) self in
  let self := set_anchor "t2" (1, - (4/10)) self in
  let self := set_anchor "p2" (0, yofst) self in
  let self := set_anchor "t3" (1, yofst + 4/10) self in
  let self := set_anchor "t4" (1, yofst - 4/10) self in
  self.

(** ** Raising and propagating exceptions *)

Global Instance result_ret : MRet result := fun _ a => Ok a.

Global Instance result_bind : MBind result := fun _ _ f r =>
  match r with
  | Ok a => f a
  | Raise e => Raise e
  end.

(** [l[0]]: the first item, [IndexError] on the empty list. *)
Definition index0 {A : Type} (l : list A) : result A :=
  match l with
  | x :: _ => Ok x
  | [] => Raise IndexError
  end.

(** [a / b] with [b] an [int]: true division, [ZeroDivisionError] at 0. *)
Definition truediv (a : R) (b : Z) : result R :=
  if decide (b = 0%Z) then Raise ZeroDivisionError else Ok (a / IZR b).

(** ** SwitchReed: lever and capsule outline *)

Section Reed.

(** [schemdraw.util.linspace(start, stop)], called with its default number
    of samples; the function is not part of this module and is taken as a
    parameter: the list of sample angles it returns. *)
Variable linspace : R -> R -> list R.

Definition SwitchReed : result Element :=
  let self := Element__init__ in
  let self := append (Segment [Pt (0, 0); Pt (85/100, 15/100); gap;
                               Pt (8/10, 0)] None) self in
  let r := 3/10 in
  let th := linspace (- PI / 2) (PI / 2) in
  let x1 := map (fun t => - r * cos t) th in
  let y1 := map (fun t => r * sin t) th in
  let x2 := map (fun k => 1 - k) x1 in
  x1_0 ← index0 x1;
  let x := (x1 ++ x2) ++ [x1_0] in
  y1_0 ← index0 y1;
  let y := (y1 ++ rev y1) ++ [y1_0] in
  mret (append (Segment (map Pt (combine x y)) None) self).

End Reed.

(** ** SwitchRotary *)

(** [math.radians] *)
Definition radians (x : R) : R := x * (PI / 180).

(** [range(n)]: empty when [n <= 0]. *)
Definition range (n : Z) : list Z := map Z.of_nat (seq 0 (Z.to_nat n)).

(** The body of the loop [for i in range(n)], with the values of
    [theta0] and [dtheta] (radians) that the loop sees. *)
Definition contact (theta0 dtheta radius arrowlen : R) (arrowcontact : Z)
    (self : Element) (i : Z) : Element :=
  let t := theta0 + dtheta * IZR i in
  let x := radius * cos t in
  let y := radius * sin t in
  let self := append (SegmentCircle (x, y) sw_dot_r) self in
  let self := set_anchor ("T" +:+ pretty (i + 1)%Z) (x, y) self in
  if decide (i = arrowcontact)
  then let arrowx := arrowlen * cos t in
       let arrowy := arrowlen * sin t in
       append (SegmentArrow (0, 0) (arrowx, arrowy) 2) self
  else self.

Definition SwitchRotary (n : Z) (dtheta theta0 : option R)
    (radius arrowlen : R) (arrowcontact : Z) : result Element :=
  let self := Element__init__ in
  let self := set_param "fill" (PStr "bg") self in
  let self := set_param "zorder" (PInt 4) self in
  let self := append (SegmentCircle (0, 0) sw_dot_r) self in
  let self := set_anchor "P" (0, 0) self in
  dtheta ← match dtheta with
           | None => q ← truediv 360 (n + 1); mret (Rmin 35 q)
           | Some d => mret d
           end;
  let dtheta := radians dtheta in
  let theta0 := match theta0 with
                | None => - dtheta * IZR (n - 1) / 2
                | Some t0 => t0
                end in
  mret (fold_left (contact theta0 dtheta radius arrowlen arrowcontact)
                  (range n) self).

(** The defaults of the keyword arguments of [SwitchRotary.__init__]. *)
Definition default_n : Z := 4.
Definition default_radius : R := 1.
Definition default_arrowlen : R := 75/100.
Definition default_arrowcontact : Z := 0.

(** ** Derived notions used to state the properties *)

(** Centres of the circles of an element, in drawing order. *)
Definition centers (e : Element) : list Point :=
  flat_map (fun s => match s with SegmentCircle c _ => [c] | _ => [] end)
           (segments e).

Definition is_polyline (s : segment) : bool :=
  match s with Segment _ _ => true | _ => false end.

(** The name [f'T{i+1}'] of the anchor of contact [i]. *)
Definition T_name (i : Z) : string := "T" +:+ pretty (i + 1)%Z.

(** What one round of the loop of [SwitchRotary] computes for contact [i]:
    the angle [t], the point [(x, y)], the arrow, and the segments that the
    round appends. *)
Definition angle (theta0 dtheta : R) (i : Z) : R := theta0 + dtheta * IZR i.

Definition position (theta0 dtheta radius : R) (i : Z) : Point :=
  (radius * cos (angle theta0 dtheta i), radius * sin (angle theta0 dtheta i)).

Definition pointer (theta0 dtheta arrowlen : R) (i : Z) : segment :=
  SegmentArrow (0, 0) (arrowlen * cos (angle theta0 dtheta i),
                       arrowlen * sin (angle theta0 dtheta i)) 2.

Definition drawn (theta0 dtheta radius arrowlen : R) (arrowcontact i : Z)
    : list segment :=
  SegmentCircle (position theta0 dtheta radius i) sw_dot_r ::
  (if decide (i = arrowcontact) then [pointer theta0 dtheta arrowlen i] else []).

(** The angles, in radians, that [SwitchRotary] works with after the
    defaults are resolved: the step between the contacts and the angle of
    the first contact. *)
Definition step_angle (n : Z) (dtheta : option R) : R :=
  radians (match dtheta with
           | None => Rmin 35 (360 / IZR (n + 1))
           | Some d => d
           end).

Definition first_angle (n : Z) (dtheta theta0 : option R) : R :=
  match theta0 with
  | None => - step_angle n dtheta * IZR (n - 1) / 2
  | Some t0 => t0
  end.

(** The element before the loop: the origin circle, anchor [P], and the
    two rendering parameters. *)
Definition rotary_hub : Element :=
  mkElement [SegmentCircle (0, 0) sw_dot_r]
            {[ "P" := (0, 0) ]}
            {[ "zorder" := PInt 4; "fill" := PStr "bg" ]}.

(** Moving a segment by a vector, and the squared distance of two points:
    used to compare the poles of the two-pole switches and to place
    anchors relative to the contact circles. *)
Definition translate_point (d p : Point) : Point :=
  (fst p + fst d, snd p + snd d).

Definition translate_item (d : Point) (it : PathItem) : PathItem :=
  match it with
  | Pt p => Pt (translate_point d p)
  | gap => gap
  end.

Definition translate (d : Point) (s : segment) : segment :=
  match s with
  | Segment path ls => Segment (map (translate_item d) path) ls
  | SegmentCircle c r => SegmentCircle (translate_point d c) r
  | SegmentArc c w h t1 t2 a => SegmentArc (translate_point d c) w h t1 t2 a
  | SegmentArrow t h z =>
      SegmentArrow (translate_point d t) (translate_point d h) z
  end.

Definition sq_dist (p q : Point) : R :=
  (fst p - fst q) * (fst p - fst q) + (snd p - snd q) * (snd p - snd q).

(** The points of a polyline, its gaps left out; no point for the other
    primitives. *)
Definition path_points (s : segment) : list Point :=
  match s with
  | Segment path _ =>
      flat_map (fun it => match it with Pt p => [p] | gap => [] end) path
  | _ => []
  end.

(** An element whose every anchor lies on the rim of one of its contact
    circles of radius [sw_dot_r]. *)
Definition anchors_on_contacts (e : Element) : Prop :=
  forall k p,
    anchors e !! k = Some p ->
    exists c, In (SegmentCircle c sw_dot_r) (segments e)
              /\ sq_dist p c = sw_dot_r * sw_dot_r.

(** The points of the envelope of [SwitchReed] for the sample angles
    [t :: th]: the list [zip(x, y)] of the constructor. *)
Definition reed_envelope (t : R) (th : list R) : list Point :=
  let r := 3/10 in
  let x1 := map (fun t => - r * cos t) (t :: th) in
  let y1 := map (fun t => r * sin t) (t :: th) in
  let x2 := map (fun k => 1 - k) x1 in
  combine ((x1 ++ x2) ++ [- r * cos t]) ((y1 ++ rev y1) ++ [r * sin t]).

(** The lever polyline of [SwitchReed]. *)
Definition reed_lever : segment :=
  Segment [Pt (0, 0); Pt (85/100, 15/100); gap; Pt (8/10, 0)] None.

(** * Properties *)

(** ** The action arrow of the toggle switches *)

Lemma action_is_true (action : option string) (s : string) :
  action_is action s = true <-> action = Some s.
Proof.
  destruct action as [a|]; simpl; [|split; discriminate].
  rewrite String.eqb_eq. split; congruence.
Qed.

Lemma action_is_decide (action : option string) (s : string) :
  action_is action s = bool_decide (action = Some s).
Proof.
  case_bool_decide as H.
  - now apply action_is_true.
  - destruct (action_is action s) eqn:E; [|reflexivity].
    now apply action_is_true in E.
Qed.

Ltac by_action action :=
  rewrite ?(action_is_decide action "open"), ?(action_is_decide action "close");
  repeat case_bool_decide; repeat case_decide;
  try congruence; try reflexivity.

(** What [Switch] appends for each value of [action] ([if] ... [if] ...). *)
Lemma Switch_segments (action : option string) :
  segments (Switch action) =
  segments (Switch None) ++
  (if decide (action = Some "open")
   then [SegmentArc (4/10, 1/10) (5/10) (75/100) (-10) 70 "ccw"]
   else if decide (action = Some "close")
   then [SegmentArc (4/10, 25/100) (5/10) (75/100) (-10) 70 "cw"]
   else []).
Proof. unfold Switch. by_action action. Qed.

(** C4: [Switch] without an action has exactly three segments, the lever
    polyline and the two contact circles, and no arc.  With
    [action='open'] exactly one arc is added, with the counter-clockwise
    arrow; with [action='close'] exactly one arc, with the clockwise arrow.
    For every value of [action] the arcs are those of the first matching
    case only, so the two arcs never occur together and any other value
    adds no arc: the segments are then those of the plain switch. *)
Theorem Switch_action_arcs (action : option string) :
  segments (Switch None) =
    [Segment [Pt (0, 0); gap; Pt (sw_dot_r * 2, 1/10); Pt (8/10, 45/100);
              gap; Pt (1, 0)] None;
     SegmentCircle (sw_dot_r, 0) sw_dot_r;
     SegmentCircle (1 - sw_dot_r, 0) sw_dot_r]
  /\ length (segments (Switch None)) = 3%nat
  /\ arcs (Switch None) = []
  /\ arcs (Switch (Some "open")) =
       [SegmentArc (4/10, 1/10) (5/10) (75/100) (-10) 70 "ccw"]
  /\ arcs (Switch (Some "close")) =
       [SegmentArc (4/10, 25/100) (5/10) (75/100) (-10) 70 "cw"]
  /\ arcs (Switch action) =
       (if decide (action = Some "open")
        then [SegmentArc (4/10, 1/10) (5/10) (75/100) (-10) 70 "ccw"]
        else if decide (action = Some "close")
        then [SegmentArc (4/10, 25/100) (5/10) (75/100) (-10) 70 "cw"]
        else [])
  /\ segments (Switch action) = segments (Switch None) ++ arcs (Switch action).
Proof.
  repeat split; try reflexivity.
  - unfold arcs. rewrite Switch_segments. by_action action.
  - unfold arcs. rewrite Switch_segments. by_action action.
Qed.

(** ** SwitchSpdt *)

(** C6: whatever the action, [SwitchSpdt] has exactly the anchors
    [a = (0,0)], [b = (1,0)] and [c = (1,0.7)]; the action only reaches
    the base [Switch], whose segments come first, followed by the third
    contact circle. *)
Theorem SwitchSpdt_anchors (action : option string) :
  anchors (SwitchSpdt action) =
    {[ "a" := (0, 0); "b" := (1, 0); "c" := (1, 7/10) ]}
  /\ dom (anchors (SwitchSpdt action)) = ({[ "a"; "b"; "c" ]} : gset string)
  /\ segments (SwitchSpdt action) =
       segments (Switch action) ++ [SegmentCircle (1 - sw_dot_r, 7/10) sw_dot_r]
  /\ arcs (SwitchSpdt action) = arcs (Switch action).
Proof.
  assert (A : anchors (SwitchSpdt action) =
              {[ "a" := (0, 0); "b" := (1, 0); "c" := (1, 7/10) ]}).
  { unfold SwitchSpdt, Switch. by_action action. }
  split; [exact A|]. split; [rewrite A; reflexivity|].
  split; [reflexivity|].
  unfold arcs, SwitchSpdt, append; simpl.
  rewrite filter_app; simpl. apply app_nil_r.
Qed.

(** ** SwitchSpdt2 *)

(** The circles are not centred on the anchor points: each centre lies
    [sw_dot_r] inside its terminal, so that the circle touches it. *)
Lemma SwitchSpdt2_centers (action : option string) :
  centers (SwitchSpdt2 action) =
    [(sw_dot_r, 0); (1 - sw_dot_r, - (4/10)); (1 - sw_dot_r, 4/10)].
Proof. unfold SwitchSpdt2. by_action action. Qed.

(** C5, as stated, fails: without an action the three circle centres are
    not [(0,0)], [(1,-.4)], [(1,.4)] (in any order); no circle is centred
    at the origin. *)
Lemma SwitchSpdt2_centers_not_at_anchors :
  ~ Permutation (centers (SwitchSpdt2 None))
                [(0, 0); (1, - (4/10)); (1, 4/10)].
Proof.
  intros HP.
  assert (HI : In ((0, 0) : Point) (centers (SwitchSpdt2 None))).
  { eapply Permutation_in; [symmetry; exact HP|]. left; reflexivity. }
  rewrite SwitchSpdt2_centers in HI. unfold sw_dot_r in HI. simpl in HI.
  destruct HI as [H|[H|[H|[]]]]; injection H; intros; lra.
Qed.

(** C5, amended: for every action [SwitchSpdt2] has exactly three circles,
    of radius [sw_dot_r], centred at [(sw_dot_r, 0)], [(1 - sw_dot_r, -.4)]
    and [(1 - sw_dot_r, .4)]; its only polyline is the lever, from [(0,0)]
    to [(1,.4)]; its anchors are [a = (0,0)], [b = (1,.4)] and
    [c = (1,-.4)]; and its parameter [drop] is [(1,.4)]. *)
Theorem SwitchSpdt2_geometry (action : option string) :
  circles (SwitchSpdt2 action) =
    [SegmentCircle (sw_dot_r, 0) sw_dot_r;
     SegmentCircle (1 - sw_dot_r, - (4/10)) sw_dot_r;
     SegmentCircle (1 - sw_dot_r, 4/10) sw_dot_r]
  /\ filter is_polyline (segments (SwitchSpdt2 action)) =
       [Segment [Pt (0, 0); gap; Pt (sw_dot_r * 2, 1/10); Pt (7/10, 25/100);
                 gap; Pt (1, 4/10)] None]
  /\ anchors (SwitchSpdt2 action) =
       {[ "a" := (0, 0); "b" := (1, 4/10); "c" := (1, - (4/10)) ]}
  /\ dom (anchors (SwitchSpdt2 action)) = ({[ "a"; "b"; "c" ]} : gset string)
  /\ params (SwitchSpdt2 action) !! "drop" = Some (PPoint (1, 4/10)).
Proof.
  unfold circles, SwitchSpdt2. by_action action; repeat split; reflexivity.
Qed.

(** ** SwitchDpst and SwitchDpdt *)

(** C7: in [SwitchDpst] and in [SwitchDpdt] a dotted segment occurs exactly
    when [link] is true, and it is then the link segment, appended last;
    the segments that are not dotted and the anchors do not depend on
    [link]. *)
Theorem Switch_link_segment (link : bool) :
  (existsb is_dotted (segments (SwitchDpst link)) = link
   /\ segments (SwitchDpst link) =
        segments (SwitchDpst false) ++
        (if link then [link_segment (-1)] else [])
   /\ existsb is_dotted (segments (SwitchDpst false)) = false
   /\ anchors (SwitchDpst link) = anchors (SwitchDpst false))
  /\
  (existsb is_dotted (segments (SwitchDpdt link)) = link
   /\ segments (SwitchDpdt link) =
        segments (SwitchDpdt false) ++
        (if link then [link_segment (- (14/10))] else [])
   /\ existsb is_dotted (segments (SwitchDpdt false)) = false
   /\ anchors (SwitchDpdt link) = anchors (SwitchDpdt false)).
Proof. destruct link; repeat split; reflexivity. Qed.

(** ** SwitchReed *)

Lemma combine_snoc {A B : Type} (l : list A) (k : list B) (a : A) (b : B) :
  length l = length k -> combine (l ++ [a]) (k ++ [b]) = combine l k ++ [(a, b)].
Proof.
  revert k; induction l as [|x l IH]; intros [|y k] E; simpl in *;
    try discriminate; [reflexivity|].
  f_equal. apply IH. now injection E.
Qed.

(** With no sample angle, [x1[0]] raises. *)
Lemma SwitchReed_no_sample (linspace : R -> R -> list R) :
  linspace (- PI / 2) (PI / 2) = [] -> SwitchReed linspace = Raise IndexError.
Proof. intros E. unfold SwitchReed. rewrite E. reflexivity. Qed.

(** C8: when the sampling function returns [k >= 1] angles for the interval
    from -90 to +90 degrees, [SwitchReed] is built without exception, its
    second segment is the envelope, a polyline of exactly [2k+1] points
    with no gap, and the first point of the envelope is also its last. *)
Theorem SwitchReed_envelope (linspace : R -> R -> list R) (k : nat) :
  length (linspace (- PI / 2) (PI / 2)) = k ->
  (1 <= k)%nat ->
  exists env : list Point,
    SwitchReed linspace =
      Ok (mkElement
            [Segment [Pt (0, 0); Pt (85/100, 15/100); gap; Pt (8/10, 0)] None;
             Segment (map Pt env) None] ∅ ∅)
    /\ length env = (2 * k + 1)%nat
    /\ head env = last env
    /\ is_Some (head env).
Proof.
  intros Hk Hpos. unfold SwitchReed.
  destruct (linspace (- PI / 2) (PI / 2)) as [|t th] eqn:E;
    [simpl in Hk; lia|].
  set (r := 3/10).
  set (x1 := map (fun t => - r * cos t) (t :: th)).
  set (y1 := map (fun t => r * sin t) (t :: th)).
  set (x2 := map (fun k => 1 - k) x1).
  assert (Lx : length x1 = k) by (unfold x1; now rewrite length_map).
  assert (Ly : length y1 = k) by (unfold y1; now rewrite length_map).
  assert (Lx2 : length x2 = k) by (unfold x2; now rewrite length_map).
  exists (combine ((x1 ++ x2) ++ [- r * cos t]) ((y1 ++ rev y1) ++ [r * sin t])).
  split; [reflexivity|].
  split.
  { unfold Point. rewrite length_combine, !length_app, length_rev, Lx, Lx2, Ly. simpl. lia. }
  rewrite combine_snoc by (rewrite !length_app, length_rev; lia).
  rewrite last_snoc. split; [reflexivity | eexists; reflexivity].
Qed.

(** Three samples over the interval: an envelope of seven points. *)
Lemma SwitchReed_envelope_witness :
  length ((fun a b : R => [a; (a + b) / 2; b]) (- PI / 2) (PI / 2)) = 3%nat /\
  (1 <= 3)%nat /\
  exists env : list Point,
    SwitchReed (fun a b => [a; (a + b) / 2; b]) =
      Ok (mkElement
            [Segment [Pt (0, 0); Pt (85/100, 15/100); gap; Pt (8/10, 0)] None;
             Segment (map Pt env) None] ∅ ∅)
    /\ length env = (2 * 3 + 1)%nat
    /\ head env = last env
    /\ is_Some (head env).
Proof.
  split; [reflexivity|]. split; [lia|].
  apply (SwitchReed_envelope (fun a b => [a; (a + b) / 2; b]) 3);
    [reflexivity | lia].
Defined.

(** ** SwitchRotary: the loop over the contacts *)

Lemma T_name_inj (i j : Z) : T_name i = T_name j -> i = j.
Proof.
  unfold T_name; simpl. intros H. injection H as H.
  apply pretty_Z_inj in H. lia.
Qed.

Lemma T_name_not_P (i : Z) : T_name i <> "P".
Proof. unfold T_name; simpl. discriminate. Qed.

Lemma range_NoDup (n : Z) : NoDup (range n).
Proof.
  unfold range. apply (NoDup_fmap_2 Z.of_nat), NoDup_seq.
Qed.

Lemma range_elem_of (n i : Z) : i ∈ range n <-> (0 <= i < n)%Z.
Proof.
  unfold range. rewrite list_elem_of_In, in_map_iff. split.
  - intros (m & <- & Hm). apply in_seq in Hm. lia.
  - intros H. exists (Z.to_nat i). split; [lia|]. apply in_seq. lia.
Qed.

Section Contacts.

Variables (theta0 dtheta radius arrowlen : R) (arrowcontact : Z).

Local Abbreviation body := (contact theta0 dtheta radius arrowlen arrowcontact).
Local Abbreviation place := (position theta0 dtheta radius).
Local Abbreviation round := (drawn theta0 dtheta radius arrowlen arrowcontact).

Lemma contact_segments (self : Element) (i : Z) :
  segments (body self i) = segments self ++ round i.
Proof.
  unfold contact, drawn, position, pointer, angle.
  destruct (decide (i = arrowcontact)); simpl;
    [rewrite <- app_assoc|]; reflexivity.
Qed.

Lemma contact_anchors (self : Element) (i : Z) :
  anchors (body self i) = <[T_name i := place i]> (anchors self).
Proof. unfold contact. destruct (decide (i = arrowcontact)); reflexivity. Qed.

Lemma contact_params (self : Element) (i : Z) :
  params (body self i) = params self.
Proof. unfold contact. destruct (decide (i = arrowcontact)); reflexivity. Qed.

Lemma loop_segments (l : list Z) (self : Element) :
  segments (fold_left body l self) = segments self ++ flat_map round l.
Proof.
  revert self; induction l as [|i l IH]; intros self; simpl.
  - now rewrite app_nil_r.
  - rewrite IH, contact_segments, <- app_assoc. reflexivity.
Qed.

Lemma loop_anchors (l : list Z) (self : Element) :
  anchors (fold_left body l self) =
  fold_left (fun m i => <[T_name i := place i]> m) l (anchors self).
Proof.
  revert self; induction l as [|i l IH]; intros self; simpl; [reflexivity|].
  now rewrite IH, contact_anchors.
Qed.

Lemma loop_params (l : list Z) (self : Element) :
  params (fold_left body l self) = params self.
Proof.
  revert self; induction l as [|i l IH]; intros self; simpl; [reflexivity|].
  now rewrite IH, contact_params.
Qed.

(** A key that no round assigns keeps its value. *)
Lemma anchors_untouched (l : list Z) (m : gmap string Point) (k : string) :
  (forall j, j ∈ l -> T_name j <> k) ->
  fold_left (fun m i => <[T_name i := place i]> m) l m !! k = m !! k.
Proof.
  revert m; induction l as [|i l IH]; intros m H; simpl; [reflexivity|].
  rewrite IH by (intros j Hj; apply H; now right).
  apply lookup_insert_ne, H. now left.
Qed.

(** The anchor of each contact of the loop is its position. *)
Lemma anchors_contact (l : list Z) (m : gmap string Point) (i : Z) :
  NoDup l -> i ∈ l ->
  fold_left (fun m i => <[T_name i := place i]> m) l m !! T_name i
  = Some (place i).
Proof.
  revert m; induction l as [|a l IH]; intros m ND Hi; simpl.
  - now apply elem_of_nil in Hi.
  - apply NoDup_cons in ND as [Ha ND].
    apply elem_of_cons in Hi as [->|Hi]; [|now apply IH].
    rewrite anchors_untouched; [apply lookup_insert_eq|].
    intros j Hj E. apply T_name_inj in E. now subst.
Qed.

(** The loop draws at most one arrow: the pointer of [arrowcontact], when
    that index is one of the rounds. *)
Lemma drawn_arrows (l : list Z) :
  NoDup l ->
  filter is_arrow (flat_map round l) =
  if decide (arrowcontact ∈ l)
  then [pointer theta0 dtheta arrowlen arrowcontact]
  else [].
Proof.
  induction l as [|a l IH]; intros ND; simpl.
  - destruct (decide (arrowcontact ∈ [])) as [H|]; [|reflexivity].
    now apply elem_of_nil in H.
  - apply NoDup_cons in ND as [Ha ND].
    rewrite filter_cons_False by (simpl; tauto).
    rewrite filter_app, (IH ND).
    destruct (decide (a = arrowcontact)) as [E|Hne].
    + subst a. rewrite (decide_False (P := arrowcontact ∈ l)) by exact Ha.
      rewrite decide_True by (now left). reflexivity.
    + destruct (decide (arrowcontact ∈ l)) as [Hin|Hnin].
      * rewrite decide_True by (now right). reflexivity.
      * rewrite decide_False; [reflexivity|].
        intros HH. apply elem_of_cons in HH as [HH|HH];
          [now apply Hne | now apply Hnin].
Qed.

Lemma drawn_circle (l : list Z) (i : Z) :
  i ∈ l -> In (SegmentCircle (place i) sw_dot_r) (flat_map round l).
Proof.
  intros Hi. apply in_flat_map. exists i.
  split; [now apply list_elem_of_In | now left].
Qed.

End Contacts.

(** [SwitchRotary] raises only for [n = -1] with [dtheta] omitted, on the
    division [360/(n+1)]; otherwise it runs the loop from [rotary_hub]. *)
Lemma SwitchRotary_ok (n : Z) (dtheta theta0 : option R)
    (radius arrowlen : R) (arrowcontact : Z) :
  (dtheta = None -> n <> (-1)%Z) ->
  SwitchRotary n dtheta theta0 radius arrowlen arrowcontact =
  Ok (fold_left (contact (first_angle n dtheta theta0) (step_angle n dtheta)
                         radius arrowlen arrowcontact)
                (range n) rotary_hub).
Proof.
  intros H. unfold SwitchRotary, first_angle, step_angle, truediv.
  destruct dtheta as [d|]; [reflexivity|].
  rewrite decide_False by (specialize (H eq_refl); lia).
  reflexivity.
Qed.


Lemma Element_eq (e : Element) s a p :
  segments e = s -> anchors e = a -> params e = p -> e = mkElement s a p.
Proof. destruct e; simpl; congruence. Qed.

(** The contacts of a construction that does not raise: for each index of
    [range(n)] a circle at the position of the contact and the anchor
    [T{i+1}] there, and anchor [P] at the origin. *)
Lemma SwitchRotary_contacts (n : Z) (dtheta theta0 : option R)
    (radius arrowlen : R) (arrowcontact i : Z) :
  (dtheta = None -> n <> (-1)%Z) ->
  (0 <= i < n)%Z ->
  let t := first_angle n dtheta theta0 + step_angle n dtheta * IZR i in
  exists e,
    SwitchRotary n dtheta theta0 radius arrowlen arrowcontact = Ok e
    /\ In (SegmentCircle (radius * cos t, radius * sin t) sw_dot_r) (segments e)
    /\ anchors e !! T_name i = Some (radius * cos t, radius * sin t)
    /\ anchors e !! "P" = Some (0, 0).
Proof.
  intros Hn Hi t. eexists. split; [now apply SwitchRotary_ok|].
  apply range_elem_of in Hi.
  rewrite loop_segments, loop_anchors. repeat split.
  - apply in_or_app; right.
    apply (drawn_circle _ _ radius arrowlen arrowcontact _ _ Hi).
  - apply anchors_contact; [apply range_NoDup | exact Hi].
  - rewrite anchors_untouched; [reflexivity|].
    intros j _. apply T_name_not_P.
Qed.

(** The arrows of a construction that does not raise. *)
Lemma SwitchRotary_arrows (n : Z) (dtheta theta0 : option R)
    (radius arrowlen : R) (arrowcontact : Z) :
  arrows (fold_left (contact (first_angle n dtheta theta0) (step_angle n dtheta)
                             radius arrowlen arrowcontact)
                    (range n) rotary_hub) =
  if decide (0 <= arrowcontact < n)%Z
  then [pointer (first_angle n dtheta theta0) (step_angle n dtheta)
                arrowlen arrowcontact]
  else [].
Proof.
  unfold arrows. rewrite loop_segments, filter_app.
  rewrite drawn_arrows by apply range_NoDup.
  destruct (decide (arrowcontact ∈ range n)) as [H|H];
    destruct (decide (0 <= arrowcontact < n)%Z) as [H'|H'];
    try reflexivity; exfalso; rewrite range_elem_of in H; tauto.
Qed.

(** The default step for four contacts is 35 degrees, and the fan starts at
    -52.5 degrees. *)
Lemma step_angle_4 : step_angle 4 None = radians 35.
Proof.
  unfold step_angle. f_equal. change (IZR (4 + 1)) with 5.
  apply Rmin_left. lra.
Qed.

Lemma first_angle_4 : first_angle 4 None None = radians (- (525/10)).
Proof.
  unfold first_angle. rewrite step_angle_4. change (IZR (4 - 1)) with 3.
  unfold radians. lra.
Qed.

Lemma angle_4 (i : Z) :
  first_angle 4 None None + step_angle 4 None * IZR i
  = radians (35 * IZR i - 525/10).
Proof. rewrite first_angle_4, step_angle_4. unfold radians. lra. Qed.

(** With a single contact the fan starts, and stays, on the x axis. *)
Lemma first_angle_1 : first_angle 1 None None = 0.
Proof. unfold first_angle. change (IZR (1 - 1)) with 0. lra. Qed.

(** ** SwitchRotary: explicit angles *)

(** With both angles given, the loop adds [dtheta], converted to radians,
    to [theta0] as it was passed: [theta0] is not converted. *)
Lemma SwitchRotary_explicit (n : Z) (dtheta theta0 radius arrowlen : R)
    (arrowcontact i : Z) :
  (0 <= i < n)%Z ->
  let t := theta0 + radians dtheta * IZR i in
  exists e,
    SwitchRotary n (Some dtheta) (Some theta0) radius arrowlen arrowcontact = Ok e
    /\ In (SegmentCircle (radius * cos t, radius * sin t) sw_dot_r) (segments e)
    /\ anchors e !! ("T" +:+ pretty (i + 1)%Z)
       = Some (radius * cos t, radius * sin t).
Proof.
  intros Hi t.
  destruct (SwitchRotary_contacts n (Some dtheta) (Some theta0) radius arrowlen
              arrowcontact i) as (e & He & Hc & Ha & _);
    [discriminate | exact Hi |].
  exists e. auto.
Qed.

(** The example of the specification, [SwitchRotary(n=10, dtheta=20,
    theta0=0)]: contact [i] is at [20*i] degrees.  The starting angle 0 is
    the same in degrees and in radians. *)
Lemma SwitchRotary_example_20 (radius arrowlen : R) (arrowcontact i : Z) :
  (0 <= i < 10)%Z ->
  let t := radians (0 + 20 * IZR i) in
  exists e,
    SwitchRotary 10 (Some 20) (Some 0) radius arrowlen arrowcontact = Ok e
    /\ In (SegmentCircle (radius * cos t, radius * sin t) sw_dot_r) (segments e)
    /\ anchors e !! ("T" +:+ pretty (i + 1)%Z)
       = Some (radius * cos t, radius * sin t).
Proof.
  intros Hi t.
  destruct (SwitchRotary_explicit 10 20 0 radius arrowlen arrowcontact i Hi)
    as (e & He & Hc & Ha).
  replace (0 + radians 20 * IZR i) with t in Hc, Ha
    by (unfold t, radians; lra).
  exists e. auto.
Qed.

(** One radian is not one degree: the sines differ. *)
Lemma sin_degree_lt_sin_1 : sin (radians 1) < sin 1.
Proof.
  pose proof PI2_1. pose proof PI_RGT_0. pose proof PI_4.
  unfold radians. apply sin_increasing_1; lra.
Qed.

(** C1: the claim fails on the code when [theta0] is not 0.  For
    [SwitchRotary(n=1, dtheta=20, theta0=1)], with radius 1, the only
    contact is at an angle of 1 radian, [T1 = (cos 1, sin 1)], and not at
    [theta0 + dtheta*0 = 1] degree. *)
Theorem SwitchRotary_theta0_not_converted :
  exists e,
    SwitchRotary 1 (Some 20) (Some 1) default_radius default_arrowlen
                 default_arrowcontact = Ok e
    /\ anchors e !! "T1" = Some (cos 1, sin 1)
    /\ anchors e !! "T1"
       <> Some (1 * cos (radians (1 + 20 * 0)), 1 * sin (radians (1 + 20 * 0))).
Proof.
  destruct (SwitchRotary_explicit 1 20 1 default_radius default_arrowlen
              default_arrowcontact 0) as (e & He & _ & Ha); [lia|].
  unfold default_radius in *.
  change ("T" +:+ pretty (0 + 1)%Z) with "T1" in Ha.
  replace (1 + radians 20 * 0) with 1 in Ha by lra.
  rewrite !Rmult_1_l in Ha.
  exists e. split; [exact He|]. split; [exact Ha|].
  rewrite Ha. intros E. injection E as _ E.
  replace (1 + 20 * 0) with 1 in E by lra. rewrite Rmult_1_l in E.
  pose proof sin_degree_lt_sin_1. lra.
Qed.

(** ** SwitchRotary: default angles *)

(** C2: with [dtheta] and [theta0] omitted, the step is
    [min(35, 360/(n+1))] degrees converted to radians, the first angle is
    [-dtheta*(n-1)/2], and each contact [i] of [range(n)] has its circle
    and its anchor [T{i+1}] at
    [(radius*cos(theta0 + dtheta*i), radius*sin(theta0 + dtheta*i))], anchor
    [P] being at the origin.  For [n = 4] and radius 1 the anchors are
    exactly [P] at the origin and [T1] to [T4] on the unit circle at -52.5,
    -17.5, 17.5 and 52.5 degrees. *)
Theorem SwitchRotary_defaults (n : Z) (radius arrowlen : R)
    (arrowcontact i : Z) :
  (0 <= i < n)%Z ->
  (let dtheta := radians (Rmin 35 (360 / IZR (n + 1))) in
   let theta0 := - dtheta * IZR (n - 1) / 2 in
   let t := theta0 + dtheta * IZR i in
   exists e,
     SwitchRotary n None None radius arrowlen arrowcontact = Ok e
     /\ In (SegmentCircle (radius * cos t, radius * sin t) sw_dot_r) (segments e)
     /\ anchors e !! ("T" +:+ pretty (i + 1)%Z)
        = Some (radius * cos t, radius * sin t)
     /\ anchors e !! "P" = Some (0, 0))
  /\
  (exists e4,
     SwitchRotary 4 None None 1 arrowlen arrowcontact = Ok e4
     /\ anchors e4 =
        {[ "P" := (0, 0);
           "T1" := (cos (radians (- (525/10))), sin (radians (- (525/10))));
           "T2" := (cos (radians (- (175/10))), sin (radians (- (175/10))));
           "T3" := (cos (radians (175/10)), sin (radians (175/10)));
           "T4" := (cos (radians (525/10)), sin (radians (525/10))) ]}).
Proof.
  intros Hi. split.
  - apply (SwitchRotary_contacts n None None radius arrowlen arrowcontact i);
      [lia | exact Hi].
  - eexists. split; [apply SwitchRotary_ok; discriminate|].
    rewrite loop_anchors. change (range 4) with [0; 1; 2; 3]%Z.
    unfold fold_left, position, angle. rewrite !angle_4, !Rmult_1_l.
    replace (35 * 0 - 525/10) with (- (525/10)) by lra.
    replace (35 * 1 - 525/10) with (- (175/10)) by lra.
    replace (35 * 2 - 525/10) with (175/10) by lra.
    replace (35 * 3 - 525/10) with (525/10) by lra.
    reflexivity.
Qed.

Lemma SwitchRotary_defaults_witness :
  (0 <= 2 < 4)%Z /\
  (let dtheta := radians (Rmin 35 (360 / IZR (4 + 1))) in
   let theta0 := - dtheta * IZR (4 - 1) / 2 in
   let t := theta0 + dtheta * IZR 2 in
   exists e,
     SwitchRotary 4 None None 1 (75/100) 0 = Ok e
     /\ In (SegmentCircle (1 * cos t, 1 * sin t) sw_dot_r) (segments e)
     /\ anchors e !! ("T" +:+ pretty (2 + 1)%Z) = Some (1 * cos t, 1 * sin t)
     /\ anchors e !! "P" = Some (0, 0))
  /\
  (exists e4,
     SwitchRotary 4 None None 1 (75/100) 0 = Ok e4
     /\ anchors e4 =
        {[ "P" := (0, 0);
           "T1" := (cos (radians (- (525/10))), sin (radians (- (525/10))));
           "T2" := (cos (radians (- (175/10))), sin (radians (- (175/10))));
           "T3" := (cos (radians (175/10)), sin (radians (175/10)));
           "T4" := (cos (radians (525/10)), sin (radians (525/10))) ]}).
Proof. split; [lia | apply (SwitchRotary_defaults 4 1 (75/100) 0 2); lia]. Defined.

(** ** SwitchRotary: the pointer arrow *)

Lemma pointer_length (arrowlen t : R) :
  (arrowlen * cos t) * (arrowlen * cos t) + (arrowlen * sin t) * (arrowlen * sin t)
  = arrowlen * arrowlen.
Proof.
  replace ((arrowlen * cos t) * (arrowlen * cos t)
           + (arrowlen * sin t) * (arrowlen * sin t))
    with (arrowlen * arrowlen * (Rsqr (sin t) + Rsqr (cos t)))
    by (unfold Rsqr; ring).
  rewrite sin2_cos2. ring.
Qed.

(** C3: in a construction that does not divide by zero (any [n] other than
    -1, or [dtheta] given), the arrows are: when [arrowcontact] is in
    [[0, n)], exactly one, from the origin to
    [(arrowlen*cos t, arrowlen*sin t)] with [t] the angle of that contact,
    whose anchor is at [(radius*cos t, radius*sin t)], so that the arrow has
    length [arrowlen]; when [arrowcontact] is outside [[0, n)], none, and the
    element is still built.  For [n=4], [arrowcontact=2] the arrow points
    along anchor [T3], at 17.5 degrees. *)
Theorem SwitchRotary_pointer (n : Z) (dtheta theta0 : option R)
    (radius arrowlen : R) (arrowcontact : Z) :
  (dtheta = None -> n <> (-1)%Z) ->
  (let t := first_angle n dtheta theta0
            + step_angle n dtheta * IZR arrowcontact in
   exists e,
     SwitchRotary n dtheta theta0 radius arrowlen arrowcontact = Ok e
     /\ arrows e =
        (if decide (0 <= arrowcontact < n)%Z
         then [SegmentArrow (0, 0) (arrowlen * cos t, arrowlen * sin t) 2]
         else [])
     /\ ((0 <= arrowcontact < n)%Z ->
         anchors e !! ("T" +:+ pretty (arrowcontact + 1)%Z)
         = Some (radius * cos t, radius * sin t))
     /\ (arrowlen * cos t) * (arrowlen * cos t)
        + (arrowlen * sin t) * (arrowlen * sin t) = arrowlen * arrowlen)
  /\
  (exists e4,
     SwitchRotary 4 None None radius arrowlen 2 = Ok e4
     /\ arrows e4 =
        [SegmentArrow (0, 0) (arrowlen * cos (radians (175/10)),
                              arrowlen * sin (radians (175/10))) 2]
     /\ anchors e4 !! "T3"
        = Some (radius * cos (radians (175/10)),
                radius * sin (radians (175/10)))).
Proof.
  intros Hn. split.
  - intros t. eexists. split; [now apply SwitchRotary_ok|].
    split; [apply SwitchRotary_arrows|].
    split; [|apply pointer_length].
    intros Hi. rewrite loop_anchors.
    apply (anchors_contact _ _ radius);
      [apply range_NoDup | now apply range_elem_of].
  - eexists. split; [apply SwitchRotary_ok; discriminate|].
    rewrite SwitchRotary_arrows, loop_anchors.
    rewrite decide_True by lia. unfold pointer, angle.
    replace (first_angle 4 None None + step_angle 4 None * 2)
      with (radians (175/10)) by (rewrite angle_4; f_equal; lra).
    split; [reflexivity|].
    change "T3" with (T_name 2).
    rewrite anchors_contact;
      [| apply range_NoDup | apply range_elem_of; lia].
    unfold position, angle.
    replace (first_angle 4 None None + step_angle 4 None * 2)
      with (radians (175/10)) by (rewrite angle_4; f_equal; lra).
    reflexivity.
Qed.

Lemma SwitchRotary_pointer_witness :
  ((None : option R) = None -> 4%Z <> (-1)%Z) /\
  (let t := first_angle 4 None None + step_angle 4 None * IZR 2 in
   exists e,
     SwitchRotary 4 None None 1 (75/100) 2 = Ok e
     /\ arrows e =
        (if decide (0 <= 2 < 4)%Z
         then [SegmentArrow (0, 0) (75/100 * cos t, 75/100 * sin t) 2]
         else [])
     /\ ((0 <= 2 < 4)%Z ->
         anchors e !! ("T" +:+ pretty (2 + 1)%Z) = Some (1 * cos t, 1 * sin t))
     /\ (75/100 * cos t) * (75/100 * cos t)
        + (75/100 * sin t) * (75/100 * sin t) = 75/100 * (75/100))
  /\
  (exists e4,
     SwitchRotary 4 None None 1 (75/100) 2 = Ok e4
     /\ arrows e4 =
        [SegmentArrow (0, 0) (75/100 * cos (radians (175/10)),
                              75/100 * sin (radians (175/10))) 2]
     /\ anchors e4 !! "T3"
        = Some (1 * cos (radians (175/10)), 1 * sin (radians (175/10)))).
Proof. split; [lia | apply (SwitchRotary_pointer 4 None None 1 (75/100) 2); lia]. Defined.

(** ** SwitchRotary: no contact, one contact *)

(** C9: with [n = 0], whatever the other arguments, no exception is raised
    and the element is the hub alone: one segment, the circle at the
    origin, and one anchor, [P] at the origin; so no [T] anchor, no other
    circle and no arrow. *)
Theorem SwitchRotary_no_contact (dtheta theta0 : option R)
    (radius arrowlen : R) (arrowcontact : Z) :
  exists e,
    SwitchRotary 0 dtheta theta0 radius arrowlen arrowcontact = Ok e
    /\ segments e = [SegmentCircle (0, 0) sw_dot_r]
    /\ anchors e = {[ "P" := (0, 0) ]}.
Proof.
  eexists. split; [apply SwitchRotary_ok; intros _; lia|].
  split; reflexivity.
Qed.

(** C10: with [n = 1] and the angles omitted, the first angle is 0, the
    single contact is on the positive x axis, [T1 = (radius, 0)], and with
    the default [arrowcontact = 0] the arrow runs from the origin to
    [(arrowlen, 0)]. *)
Theorem SwitchRotary_single_contact (radius arrowlen : R) :
  first_angle 1 None None = 0
  /\ exists e,
       SwitchRotary 1 None None radius arrowlen default_arrowcontact = Ok e
       /\ segments e = [SegmentCircle (0, 0) sw_dot_r;
                        SegmentCircle (radius, 0) sw_dot_r;
                        SegmentArrow (0, 0) (arrowlen, 0) 2]
       /\ anchors e = {[ "P" := (0, 0); "T1" := (radius, 0) ]}.
Proof.
  split; [apply first_angle_1|].
  eexists. split; [apply SwitchRotary_ok; intros _; lia|].
  assert (A : angle (first_angle 1 None None) (step_angle 1 None) 0 = 0).
  { unfold angle. rewrite first_angle_1. lra. }
  split.
  - rewrite loop_segments. change (range 1) with [0%Z].
    unfold default_arrowcontact, flat_map, drawn, position, pointer.
    rewrite decide_True by reflexivity.
    rewrite A, cos_0, sin_0, !Rmult_1_r, !Rmult_0_r. reflexivity.
  - rewrite loop_anchors. change (range 1) with [0%Z].
    unfold fold_left, position.
    rewrite A, cos_0, sin_0, !Rmult_1_r, !Rmult_0_r. reflexivity.
Qed.

(** * Further properties of the constructors *)

(** ** SwitchRotary: when it raises, and what it builds *)



Lemma range_length (n : Z) : length (range n) = Z.to_nat n.
Proof. unfold range. now rewrite length_map, length_seq. Qed.



Section Loop.

Variables (theta0 dtheta radius arrowlen : R) (arrowcontact : Z).

Local Abbreviation place := (position theta0 dtheta radius).
Local Abbreviation round := (drawn theta0 dtheta radius arrowlen arrowcontact).
Local Abbreviation assign :=
  (fun (m : gmap string Point) i => <[T_name i := place i]> m).

(** The anchors after the loop: those it assigned, and the earlier ones
    under other names. *)
Lemma anchors_lookup_Some (l : list Z) (m : gmap string Point)
    (k : string) (p : Point) :
  fold_left assign l m !! k = Some p
  <-> (exists i, i ∈ l /\ k = T_name i /\ p = place i)
      \/ ((forall i, i ∈ l -> k <> T_name i) /\ m !! k = Some p).
Proof.
  revert m; induction l as [|a l IH]; intros m; simpl.
  - split.
    + intros H. right. split; [|exact H]. intros i Hi.
      now apply elem_of_nil in Hi.
    + intros [(i & Hi & _)|[_ H]]; [now apply elem_of_nil in Hi | exact H].
  - rewrite IH, lookup_insert_Some. split.
    + intros [(i & Hi & Hk & Hp)|[Hl [[Hk Hp]|[Hk Hm]]]].
      * left. exists i. split; [now right | auto].
      * left. exists a. split; [now left | auto].
      * right. split; [|exact Hm].
        intros i [->|Hi]%elem_of_cons; [congruence | now apply Hl].
    + intros [(i & Hi & Hk & Hp)|[Hl Hm]].
      * destruct (decide (i ∈ l)) as [Hil|Hil]; [left; eauto|].
        apply elem_of_cons in Hi as [->|Hi]; [|contradiction].
        right. split; [|left; auto].
        intros j Hj Hkj. subst k. apply T_name_inj in Hkj. now subst j.
      * right. split; [intros i Hi; apply Hl; now right|].
        right. split; [|exact Hm].
        intros E. apply (Hl a); [now left | auto].
Qed.

Lemma anchors_size (l : list Z) (m : gmap string Point) :
  NoDup l -> (forall i, i ∈ l -> m !! T_name i = None) ->
  size (fold_left assign l m) = (size m + length l)%nat.
Proof.
  revert m; induction l as [|a l IH]; intros m ND Hm; simpl; [lia|].
  apply NoDup_cons in ND as [Ha ND].
  rewrite IH; [| exact ND |].
  - rewrite map_size_insert_None by (apply Hm; now left). lia.
  - intros i Hi. rewrite lookup_insert_ne; [apply Hm; now right|].
    intros E. apply T_name_inj in E. now subst.
Qed.

(** The circles that the loop draws, in order: one for each round. *)
Lemma drawn_circles (l : list Z) :
  filter is_circle (flat_map round l)
  = map (fun i => SegmentCircle (place i) sw_dot_r) l.
Proof.
  induction l as [|a l IH]; simpl; [reflexivity|].
  rewrite filter_cons_True by (simpl; tauto).
  rewrite filter_app, IH.
  destruct (decide (a = arrowcontact)); reflexivity.
Qed.

Lemma drawn_length (l : list Z) :
  NoDup l ->
  length (flat_map round l)
  = (length l + if decide (arrowcontact ∈ l) then 1 else 0)%nat.
Proof.
  induction l as [|a l IH]; intros ND; simpl.
  - destruct (decide (arrowcontact ∈ [])) as [H|]; [|reflexivity].
    now apply elem_of_nil in H.
  - apply NoDup_cons in ND as [Ha ND].
    rewrite length_app, (IH ND).
    destruct (decide (a = arrowcontact)) as [E|Hne]; simpl.
    + subst a. rewrite (decide_False (P := arrowcontact ∈ l)) by exact Ha.
      rewrite decide_True by (now left). lia.
    + destruct (decide (arrowcontact ∈ l)) as [Hin|Hnin].
      * rewrite decide_True by (now right). lia.
      * rewrite decide_False; [lia|].
        intros HH. apply elem_of_cons in HH as [HH|HH];
          [now apply Hne | now apply Hnin].
Qed.

End Loop.

Lemma rotary_hub_anchors : anchors rotary_hub = {[ "P" := (0, 0) ]}.
Proof. reflexivity. Qed.

(** X3: The anchors of a rotary switch are [P] at the origin and one [T{i+1}]
    for each contact [i] of [range(n)], at the position of the contact, and
    no other: [n + 1] anchors for [n >= 0]. *)
Theorem SwitchRotary_anchors_exactly (n : Z) (dtheta theta0 : option R)
    (radius arrowlen : R) (arrowcontact : Z) :
  (dtheta = None -> n <> (-1)%Z) ->
  let t i := first_angle n dtheta theta0 + step_angle n dtheta * IZR i in
  exists e,
    SwitchRotary n dtheta theta0 radius arrowlen arrowcontact = Ok e
    /\ (forall k p,
          anchors e !! k = Some p
          <-> (k = "P" /\ p = (0, 0))
              \/ exists i, (0 <= i < n)%Z
                   /\ k = "T" +:+ pretty (i + 1)%Z
                   /\ p = (radius * cos (t i), radius * sin (t i)))
    /\ size (anchors e) = S (Z.to_nat n).
Proof.
  intros Hn t. eexists. split; [now apply SwitchRotary_ok|].
  rewrite loop_anchors, rotary_hub_anchors. split.
  - intros k p. rewrite anchors_lookup_Some. split.
    + intros [(i & Hi & Hk & Hp)|[Hl Hm]].
      * right. exists i. apply range_elem_of in Hi. auto.
      * left. apply lookup_singleton_Some in Hm as [<- <-]. auto.
    + intros [[-> ->]|(i & Hi & Hk & Hp)].
      * right. split; [|reflexivity].
        intros i _ E. symmetry in E. now apply T_name_not_P in E.
      * left. exists i. apply range_elem_of in Hi. auto.
  - rewrite anchors_size; [| apply range_NoDup |].
    + rewrite range_length. reflexivity.
    + intros i _. apply lookup_singleton_ne. intros E. symmetry in E.
      now apply T_name_not_P in E.
Qed.

Lemma SwitchRotary_anchors_exactly_witness :
  ((None : option R) = None -> 4%Z <> (-1)%Z) /\
  let t i := first_angle 4 None None + step_angle 4 None * IZR i in
  exists e,
    SwitchRotary 4 None None 1 (75/100) 0 = Ok e
    /\ (forall k p,
          anchors e !! k = Some p
          <-> (k = "P" /\ p = (0, 0))
              \/ exists i, (0 <= i < 4)%Z
                   /\ k = "T" +:+ pretty (i + 1)%Z
                   /\ p = (1 * cos (t i), 1 * sin (t i)))
    /\ size (anchors e) = S (Z.to_nat 4).
Proof.
  split; [lia|].
  apply (SwitchRotary_anchors_exactly 4 None None 1 (75/100) 0). lia.
Defined.

(** X4: The circles of a rotary switch, in drawing order, are the hub and one
    circle of radius [sw_dot_r] for each contact; they do not depend on
    the arrow.  The element has [n + 1] segments for [n >= 0], and one
    more when [arrowcontact] is in [[0, n)]. *)
Theorem SwitchRotary_circles (n : Z) (dtheta theta0 : option R)
    (radius arrowlen : R) (arrowcontact : Z) :
  (dtheta = None -> n <> (-1)%Z) ->
  let t i := first_angle n dtheta theta0 + step_angle n dtheta * IZR i in
  exists e,
    SwitchRotary n dtheta theta0 radius arrowlen arrowcontact = Ok e
    /\ circles e =
       SegmentCircle (0, 0) sw_dot_r ::
       map (fun i => SegmentCircle (radius * cos (t i), radius * sin (t i))
                                   sw_dot_r) (range n)
    /\ length (circles e) = S (Z.to_nat n)
    /\ length (segments e) =
       (S (Z.to_nat n)
        + if decide (0 <= arrowcontact < n)%Z then 1 else 0)%nat.
Proof.
  intros Hn t. eexists. split; [now apply SwitchRotary_ok|].
  unfold circles. rewrite loop_segments, filter_app, drawn_circles.
  split; [reflexivity|]. split.
  - simpl. now rewrite length_map, range_length.
  - rewrite length_app, drawn_length by apply range_NoDup.
    rewrite range_length. simpl.
    destruct (decide (arrowcontact ∈ range n)) as [H|H];
      destruct (decide (0 <= arrowcontact < n)%Z) as [H'|H'];
      try reflexivity; exfalso; rewrite range_elem_of in H; tauto.
Qed.

Lemma SwitchRotary_circles_witness :
  ((None : option R) = None -> 4%Z <> (-1)%Z) /\
  let t i := first_angle 4 None None + step_angle 4 None * IZR i in
  exists e,
    SwitchRotary 4 None None 1 (75/100) 0 = Ok e
    /\ circles e =
       SegmentCircle (0, 0) sw_dot_r ::
       map (fun i => SegmentCircle (1 * cos (t i), 1 * sin (t i)) sw_dot_r)
           (range 4)
    /\ length (circles e) = S (Z.to_nat 4)
    /\ length (segments e) =
       (S (Z.to_nat 4) + if decide (0 <= 0 < 4)%Z then 1 else 0)%nat.
Proof.
  split; [lia|].
  apply (SwitchRotary_circles 4 None None 1 (75/100) 0). lia.
Defined.



(** X6: The loop leaves the rendering parameters alone: a rotary switch has
    [fill = 'bg'] and [zorder = 4] and no other parameter, and its first
    segment is the hub circle. *)
Theorem SwitchRotary_params (n : Z) (dtheta theta0 : option R)
    (radius arrowlen : R) (arrowcontact : Z) :
  (dtheta = None -> n <> (-1)%Z) ->
  exists e,
    SwitchRotary n dtheta theta0 radius arrowlen arrowcontact = Ok e
    /\ params e = {[ "fill" := PStr "bg"; "zorder" := PInt 4 ]}
    /\ head (segments e) = Some (SegmentCircle (0, 0) sw_dot_r).
Proof.
  intros Hn. eexists. split; [now apply SwitchRotary_ok|].
  rewrite loop_params, loop_segments. split; reflexivity.
Qed.

Lemma SwitchRotary_params_witness :
  ((None : option R) = None -> 4%Z <> (-1)%Z) /\
  exists e,
    SwitchRotary 4 None None 1 (75/100) 0 = Ok e
    /\ params e = {[ "fill" := PStr "bg"; "zorder" := PInt 4 ]}
    /\ head (segments e) = Some (SegmentCircle (0, 0) sw_dot_r).
Proof.
  split; [lia|].
  apply (SwitchRotary_params 4 None None 1 (75/100) 0). lia.
Defined.

(** ** SwitchRotary: the shape of the fan *)







(** ** The action arrow of SwitchSpdt2 *)

(** X10: [SwitchSpdt2] adds at most one arc, after its lever and circles: the
    counter-clockwise one centred at [(.35, 0)] for ['open'], the clockwise
    one centred at [(.3, 0)] for ['close'], none for any other value; the
    anchors do not depend on the action. *)
Theorem SwitchSpdt2_action_arcs (action : option string) :
  arcs (SwitchSpdt2 action) =
    (if decide (action = Some "open")
     then [SegmentArc (35/100, 0) (5/10) (75/100) (-10) 70 "ccw"]
     else if decide (action = Some "close")
     then [SegmentArc (3/10, 0) (5/10) (75/100) (-10) 70 "cw"]
     else [])
  /\ segments (SwitchSpdt2 action) =
     segments (SwitchSpdt2 None) ++ arcs (SwitchSpdt2 action)
  /\ anchors (SwitchSpdt2 action) = anchors (SwitchSpdt2 None).
Proof. unfold arcs, SwitchSpdt2. by_action action; repeat split. Qed.

(** ** The two poles of SwitchDpst and SwitchDpdt *)

Ltac coordinates :=
  lazymatch goal with
  | |- @eq R _ _ => unfold sw_dot_r; lra
  | |- _ => first [reflexivity | progress f_equal; coordinates]
  end.

Ltac by_coordinates :=
  simpl; unfold translate_point, link_segment; simpl; coordinates.

(** X11: [SwitchDpst] is the plain [Switch] drawn twice, the second copy moved
    down by 1, followed by the link when asked for; its anchors [p2] and
    [t2] are [p1] and [t1] moved likewise. *)
Theorem SwitchDpst_two_poles (link : bool) :
  segments (SwitchDpst link) =
    segments (Switch None)
    ++ map (translate (0, -1)) (segments (Switch None))
    ++ (if link then [link_segment (-1)] else [])
  /\ dom (anchors (SwitchDpst link)) = ({[ "p1"; "t1"; "p2"; "t2" ]} : gset string)
  /\ anchors (SwitchDpst link) !! "p1" = Some (0, 0)
  /\ anchors (SwitchDpst link) !! "t1" = Some (1, 0)
  /\ anchors (SwitchDpst link) !! "p2" = Some (translate_point (0, -1) (0, 0))
  /\ anchors (SwitchDpst link) !! "t2" = Some (translate_point (0, -1) (1, 0)).
Proof.
  split.
  { destruct link; unfold SwitchDpst, Switch, append; by_coordinates. }
  split; [destruct link; reflexivity|].
  split; [destruct link; reflexivity|].
  split; [destruct link; reflexivity|].
  split; destruct link; unfold SwitchDpst, set_anchor; simpl;
    rewrite ?lookup_insert_eq, ?lookup_insert_ne by discriminate;
    rewrite ?lookup_insert_eq; by_coordinates.
Qed.

(** X12: [SwitchDpdt] is the [SwitchSpdt2] drawing (without arrow) twice, the
    second copy moved down by 1.4, followed by the link when asked for;
    [p1], [t1], [t2] are the anchors [a], [b], [c] of [SwitchSpdt2] and
    [p2], [t3], [t4] are the same points moved down. *)
Theorem SwitchDpdt_two_poles (link : bool) :
  segments (SwitchDpdt link) =
    segments (SwitchSpdt2 None)
    ++ map (translate (0, - (14/10))) (segments (SwitchSpdt2 None))
    ++ (if link then [link_segment (- (14/10))] else [])
  /\ dom (anchors (SwitchDpdt link))
     = ({[ "p1"; "t1"; "t2"; "p2"; "t3"; "t4" ]} : gset string)
  /\ anchors (SwitchDpdt link) !! "p1" = anchors (SwitchSpdt2 None) !! "a"
  /\ anchors (SwitchDpdt link) !! "t1" = anchors (SwitchSpdt2 None) !! "b"
  /\ anchors (SwitchDpdt link) !! "t2" = anchors (SwitchSpdt2 None) !! "c"
  /\ anchors (SwitchDpdt link) !! "p2"
     = translate_point (0, - (14/10)) <$> anchors (SwitchSpdt2 None) !! "a"
  /\ anchors (SwitchDpdt link) !! "t3"
     = translate_point (0, - (14/10)) <$> anchors (SwitchSpdt2 None) !! "b"
  /\ anchors (SwitchDpdt link) !! "t4"
     = translate_point (0, - (14/10)) <$> anchors (SwitchSpdt2 None) !! "c".
Proof.
  split.
  { destruct link; unfold SwitchDpdt, SwitchSpdt2, append; by_coordinates. }
  split; [destruct link; reflexivity|].
  split; [destruct link; reflexivity|].
  split; [destruct link; reflexivity|].
  split; [destruct link; reflexivity|].
  assert (A : anchors (SwitchSpdt2 None)
              = {[ "a" := (0, 0); "b" := (1, 4/10); "c" := (1, - (4/10)) ]})
    by reflexivity.
  rewrite A.
  rewrite lookup_insert_eq.
  rewrite lookup_insert_ne, lookup_insert_eq by discriminate.
  rewrite !lookup_insert_ne, lookup_singleton_eq by discriminate.
  repeat split; destruct link; unfold SwitchDpdt, set_anchor;
    cbn [anchors];
    rewrite ?lookup_insert_eq, ?lookup_insert_ne by discriminate;
    rewrite ?lookup_insert_eq, ?lookup_insert_ne by discriminate;
    rewrite ?lookup_insert_eq; by_coordinates.
Qed.

(** ** Anchors and contact circles *)

Ltac open_element :=
  cbn [anchors segments params set_anchor set_param append
       Element__init__ app] in *.

Ltac each_anchor H :=
  repeat (apply lookup_insert_Some in H as [[<- <-]|[_ H]]);
  try (rewrite lookup_empty in H; discriminate H).

Ltac contact c :=
  exists c; split; [simpl; auto 12 | unfold sq_dist, sw_dot_r; simpl; lra].

(** X13: In the switches with named terminals, every anchor lies on the rim of
    a contact circle of the element: the circles are drawn inside the
    terminals, touching them. *)
Theorem anchors_touch_contacts (action : option string) (link : bool) :
  anchors_on_contacts (SwitchSpdt action)
  /\ anchors_on_contacts (SwitchSpdt2 action)
  /\ anchors_on_contacts (SwitchDpst link)
  /\ anchors_on_contacts (SwitchDpdt link).
Proof.
  repeat split; intros k p Hk.
  - unfold SwitchSpdt, Switch in *. revert Hk. by_action action;
      intros Hk; open_element; each_anchor Hk.
    all: first [contact (1 - sw_dot_r, 7/10) | contact (1 - sw_dot_r, 0)
               | contact (sw_dot_r, 0)].
  - unfold SwitchSpdt2 in *. revert Hk. by_action action;
      intros Hk; open_element; each_anchor Hk.
    all: first [contact (1 - sw_dot_r, - (4/10)) | contact (1 - sw_dot_r, 4/10)
               | contact (sw_dot_r, 0)].
  - unfold SwitchDpst in *. destruct link; open_element; each_anchor Hk.
    all: first [contact (1 - sw_dot_r, -1) | contact (sw_dot_r, -1)
               | contact (1 - sw_dot_r, 0) | contact (sw_dot_r, 0)].
  - unfold SwitchDpdt in *. destruct link; open_element; each_anchor Hk.
    all: first [contact (1 - sw_dot_r, - (14/10) - 4/10)
               | contact (1 - sw_dot_r, - (14/10) + 4/10)
               | contact (sw_dot_r, - (14/10))
               | contact (1 - sw_dot_r, - (4/10))
               | contact (1 - sw_dot_r, 4/10)
               | contact (sw_dot_r, 0)].
Qed.

(** ** SwitchReed: exceptions and the shape of the envelope *)

Lemma SwitchReed_ok (linspace : R -> R -> list R) (t : R) (th : list R) :
  linspace (- PI / 2) (PI / 2) = t :: th ->
  SwitchReed linspace =
  Ok (mkElement [reed_lever; Segment (map Pt (reed_envelope t th)) None] ∅ ∅).
Proof. intros E. unfold SwitchReed. rewrite E. reflexivity. Qed.

(** X15: [SwitchReed] raises exactly when the sampling function returns no
    angle, and the exception is then [IndexError], from [x1[0]]. *)
Theorem SwitchReed_raises_iff (linspace : R -> R -> list R) (e : exn) :
  SwitchReed linspace = Raise e
  <-> linspace (- PI / 2) (PI / 2) = [] /\ e = IndexError.
Proof.
  split.
  - intros H. destruct (linspace (- PI / 2) (PI / 2)) as [|t th] eqn:E.
    + rewrite SwitchReed_no_sample in H by exact E. injection H as <-. auto.
    + rewrite (SwitchReed_ok _ _ _ E) in H. discriminate.
  - intros [E ->]. now apply SwitchReed_no_sample.
Qed.

Lemma path_points_map_Pt (l : list Point) (ls : option string) :
  path_points (Segment (map Pt l) ls) = l.
Proof.
  simpl. induction l as [|p l IH]; simpl; [reflexivity|]. now rewrite IH.
Qed.

Lemma reed_envelope_box (t : R) (th : list R) (p : Point) :
  In p (reed_envelope t th) ->
  - (3/10) <= fst p <= 13/10 /\ - (3/10) <= snd p <= 3/10.
Proof.
  destruct p as [x y]. unfold reed_envelope. intros H.
  pose proof (in_combine_l _ _ _ _ H) as Hx.
  pose proof (in_combine_r _ _ _ _ H) as Hy. clear H. simpl fst; simpl snd.
  assert (X1 : forall k, In k (map (fun t0 => - (3/10) * cos t0) (t :: th)) ->
                    - (3/10) <= k <= 3/10).
  { intros k (u & <- & _)%in_map_iff. pose proof (COS_bound u). lra. }
  assert (Y1 : forall k, In k (map (fun t0 => 3/10 * sin t0) (t :: th)) ->
                    - (3/10) <= k <= 3/10).
  { intros k (u & <- & _)%in_map_iff. pose proof (SIN_bound u). lra. }
  split.
  - apply in_app_or in Hx as [Hx|Hx]; [apply in_app_or in Hx as [Hx|Hx]|].
    + apply X1 in Hx. lra.
    + apply in_map_iff in Hx as (k & <- & Hk). apply X1 in Hk. lra.
    + destruct Hx as [<-|[]]. pose proof (COS_bound t). lra.
  - apply in_app_or in Hy as [Hy|Hy]; [apply in_app_or in Hy as [Hy|Hy]|].
    + now apply Y1.
    + apply in_rev in Hy. now apply Y1.
    + destruct Hy as [<-|[]]. pose proof (SIN_bound t). lra.
Qed.

(** X16: Whatever the sample angles, the drawing of a reed switch stays in the
    box from [(-0.3, -0.3)] to [(1.3, 0.3)]: every point of the lever and
    of the envelope is inside. *)
Theorem SwitchReed_bounding_box (linspace : R -> R -> list R) :
  linspace (- PI / 2) (PI / 2) <> [] ->
  exists e,
    SwitchReed linspace = Ok e
    /\ forall s p,
         In s (segments e) -> In p (path_points s) ->
         - (3/10) <= fst p <= 13/10 /\ - (3/10) <= snd p <= 3/10.
Proof.
  intros Hne.
  destruct (linspace (- PI / 2) (PI / 2)) as [|t th] eqn:E; [congruence|].
  eexists. split; [apply (SwitchReed_ok _ _ _ E)|].
  intros s p [<-|[<-|[]]] Hp.
  - simpl in Hp. destruct Hp as [<-|[<-|[<-|[]]]]; simpl; lra.
  - rewrite path_points_map_Pt in Hp. now apply reed_envelope_box in Hp.
Qed.

Lemma SwitchReed_bounding_box_witness :
  (fun a b : R => [a; (a + b) / 2; b]) (- PI / 2) (PI / 2) <> [] /\
  exists e,
    SwitchReed (fun a b => [a; (a + b) / 2; b]) = Ok e
    /\ forall s p,
         In s (segments e) -> In p (path_points s) ->
         - (3/10) <= fst p <= 13/10 /\ - (3/10) <= snd p <= 3/10.
Proof.
  split; [discriminate|].
  apply (SwitchReed_bounding_box (fun a b => [a; (a + b) / 2; b])).
  discriminate.
Defined.





(** ** Button *)

(** X14: Both kinds of push button are the same drawing up to two heights: the
    two contact circles of [Switch], and one polyline from [(0,0)] to
    [(1,0)] made of a bar between the contacts at height [ybar] and a
    plunger from the middle of the bar up to [ytop], above the contacts.
    The bar is below the contact circles when normally closed and above
    them otherwise.  A button has no anchor of its own. *)
Theorem Button_geometry (nc : bool) (action : option string) :
  circles (Button nc) = circles (Switch action)
  /\ anchors (Button nc) = ∅
  /\ exists ybar ytop,
       segments (Button nc) =
         [Segment [Pt (0, 0); gap; Pt (sw_dot_r, ybar); Pt (1 - sw_dot_r, ybar);
                   gap; Pt (5/10, ybar); Pt (5/10, ytop); gap; Pt (1, 0)] None;
          SegmentCircle (sw_dot_r, 0) sw_dot_r;
          SegmentCircle (1 - sw_dot_r, 0) sw_dot_r]
       /\ (if nc then ybar < - sw_dot_r else sw_dot_r < ybar)
       /\ ybar < ytop /\ sw_dot_r < ytop.
Proof.
  split.
  { unfold circles. rewrite Switch_segments, filter_app.
    replace (filter is_circle
               (if decide (action = Some "open")
                then [SegmentArc (4/10, 1/10) (5/10) (75/100) (-10) 70 "ccw"]
                else if decide (action = Some "close")
                then [SegmentArc (4/10, 25/100) (5/10) (75/100) (-10) 70 "cw"]
                else [])) with (@nil segment)
      by (repeat case_decide; reflexivity).
    destruct nc; reflexivity. }
  split; [destruct nc; reflexivity|].
  destruct nc.
  - exists (- sw_dot_r - 5/100), (sw_dot_r + 15/100).
    split; [reflexivity|]. unfold sw_dot_r. lra.
  - exists (3/10), (5/10).
    split; [reflexivity|]. unfold sw_dot_r. lra.
Qed.

(** ** SwitchRotary: an explicit step of a full turn *)


